(** * Caesar cipher engine of [Caeser_Cypher.py]

    A shallow embedding of the four functions under the banner
    "Caesar logic" ([shift_char], [encrypt_text], [decrypt_text],
    [brute_force]) together with the Python primitives they call
    ([ord], [chr], string comparison, [str.join], [range], the [2d]
    format specifier), followed by the properties the specification
    states about them.  The utility [clamp], the status-bar animation
    [animate_label_fade] and the text paths of the handlers [_run],
    [_do_process], [_save_file] and [_copy_output], which call the
    cipher, are embedded as well, with the properties they show.

    A Python [str] is a sequence of Unicode code points; it is modelled as
    a list of integers.  Python's [int] is unbounded, hence [Z].  The
    operator [%] with a positive right operand is the floored modulus,
    which is [Z.modulo].  Builtins that can raise do so through the
    [result] type below. *)

From Stdlib Require Import ZArith List Bool Lia String Ascii.
From Stdlib Require Import DecimalString.
Import ListNotations.

Local Open Scope Z_scope.

(** ** Python values and exceptions *)

Definition codepoint := Z.
Definition str := list codepoint.

(** Code points that Python's [chr] accepts: [range(0x110000)]. *)
Definition valid_codepoint (c : codepoint) : bool :=
  (0 <=? c) && (c <? 0x110000).

Inductive exn : Type :=
| TypeError
| ValueError.

Inductive result (A : Type) : Type :=
| Ok (a : A)
| Raise (e : exn).

Arguments Ok {A} a.
Arguments Raise {A} e.

Definition bind {A B : Type} (m : result A) (k : A -> result B) : result B :=
  match m with
  | Ok a => k a
  | Raise e => Raise e
  end.

Declare Scope py_scope.
Delimit Scope py_scope with py.
Notation "x <- m ;; k" := (bind m (fun x => k))
  (at level 61, m at next level, right associativity) : py_scope.
Local Open Scope py_scope.

(** A string literal of the source, as a sequence of code points. *)
Definition lit (s : string) : str :=
  map (fun a => Z.of_N (N_of_ascii a)) (list_ascii_of_string s).

(** ** Builtins used by the cipher *)

(** [ord(s)]: the code point of a one-character string; [TypeError] on
    any other length. *)
Definition ord (s : str) : result Z :=
  match s with
  | [c] => Ok c
  | _ => Raise TypeError
  end.

(** [chr(i)]: the one-character string of code point [i]; [ValueError]
    outside [range(0x110000)]. *)
Definition chr (i : Z) : result str :=
  if valid_codepoint i then Ok [i] else Raise ValueError.

(** [a <= b] on strings: lexicographic order on code points. *)
Fixpoint str_le (a b : str) : bool :=
  match a, b with
  | [], _ => true
  | _ :: _, [] => false
  | x :: a', y :: b' => (x <? y) || ((x =? y) && str_le a' b')
  end.

(** [sep.join(parts)]: the parts with [sep] between consecutive ones,
    nothing before the first or after the last. *)
Fixpoint join (sep : str) (parts : list str) : str :=
  match parts with
  | [] => []
  | [p] => p
  | p :: rest => p ++ sep ++ join sep rest
  end.

(** [range(n)] *)
Definition range (n : Z) : list Z :=
  map Z.of_nat (seq 0 (Z.to_nat n)).

(** [f"{s:2d}"]: decimal digits of [s] (with a leading minus sign when
    negative), padded on the left with spaces to a width of at least 2. *)
Definition decimal (s : Z) : str :=
  lit (NilZero.string_of_int (Z.to_int s)).

Definition format_2d (s : Z) : str :=
  let d := decimal s in
  repeat 32 (2 - List.length d)%nat ++ d.

(** Evaluates a generator expression [f(x) for x in xs], stopping at the
    first exception. *)
Fixpoint mapM {A B : Type} (f : A -> result B) (xs : list A) : result (list B) :=
  match xs with
  | [] => Ok []
  | x :: rest =>
      y <- f x ;;
      ys <- mapM f rest ;;
      Ok (y :: ys)
  end.

(** ** Caesar logic *)

Definition ALPHABET_SIZE : Z := 26.

(** [shift_char], lines 49-56.  The parameter is a [str], as in the
    source; the chained comparison ['A' <= ch <= 'Z'] is the conjunction
    of the two string comparisons. *)
Definition shift_char (ch : str) (shift : Z) : result str :=
  if str_le (lit "A") ch && str_le ch (lit "Z") then
    c <- ord ch ;;
    a <- ord (lit "A") ;;
    let idx := c - a in
    a' <- ord (lit "A") ;;
    chr (((idx + shift) mod ALPHABET_SIZE) + a')
  else if str_le (lit "a") ch && str_le ch (lit "z") then
    c <- ord ch ;;
    a <- ord (lit "a") ;;
    let idx := c - a in
    a' <- ord (lit "a") ;;
    chr (((idx + shift) mod ALPHABET_SIZE) + a')
  else
    Ok ch.

(** [encrypt_text], lines 58-59.  Iterating a [str] yields its
    characters as one-character strings. *)
Definition encrypt_text (text : str) (shift : Z) : result str :=
  parts <- mapM (fun c => shift_char [c] shift) text ;;
  Ok (join [] parts).

(** [decrypt_text], lines 61-62. *)
Definition decrypt_text (text : str) (shift : Z) : result str :=
  encrypt_text text (- shift).

(** The [for] loop of [brute_force], lines 66-67: [ss] is what remains of
    [range(ALPHABET_SIZE)], [lines] the list built so far. *)
Fixpoint brute_force_loop (text : str) (ss : list Z) (lines : list str)
  : result (list str) :=
  match ss with
  | [] => Ok lines
  | s :: rest =>
      d <- decrypt_text text s ;;
      brute_force_loop text rest
        (lines ++ [lit "Shift " ++ format_2d s ++ lit ": " ++ d])
  end.

(** [brute_force], lines 64-68. *)
Definition brute_force (text : str) : result str :=
  lines <- brute_force_loop text (range ALPHABET_SIZE) [] ;;
  Ok (join (lit (String "010"%char EmptyString)) lines).

(** ** Vocabulary of the specification and of the proofs *)

(** The two alphabets of the specification, in order. *)
Definition UPPERCASE : str := lit "ABCDEFGHIJKLMNOPQRSTUVWXYZ".
Definition LOWERCASE : str := lit "abcdefghijklmnopqrstuvwxyz".

(** Position of a character within an alphabet, if it occurs there. *)
Fixpoint index_of (c : codepoint) (alphabet : str) : option Z :=
  match alphabet with
  | [] => None
  | x :: rest =>
      if x =? c then Some 0 else option_map Z.succ (index_of c rest)
  end.

(** The letter at a position of an alphabet. *)
Definition letter_at (alphabet : str) (k : Z) : option codepoint :=
  if k <? 0 then None else nth_error alphabet (Z.to_nat k).

Definition is_upper (c : codepoint) : bool := (65 <=? c) && (c <=? 90).
Definition is_lower (c : codepoint) : bool := (97 <=? c) && (c <=? 122).
Definition is_letter (c : codepoint) : bool := is_upper c || is_lower c.

(** The code point that [shift_char] computes for a one-character string
    (see [shift_char_single]). *)
Definition shift_codepoint (shift : Z) (c : codepoint) : codepoint :=
  if is_upper c then (c - 65 + shift) mod ALPHABET_SIZE + 65
  else if is_lower c then (c - 97 + shift) mod ALPHABET_SIZE + 97
  else c.

Definition newline : codepoint := 10.

(** [s.split(sep)] for a one-character separator. *)
Fixpoint split_on (sep : codepoint) (s : str) : list str :=
  match s with
  | [] => [[]]
  | c :: rest =>
      if c =? sep then [] :: split_on sep rest
      else match split_on sep rest with
           | [] => [[c]]
           | l :: ls => (c :: l) :: ls
           end
  end.

(** A shift in [0, 25] right-aligned in two columns, as the
    specification words the listing: a space and the digit below 10, the
    two digits from 10 on. *)
Definition two_columns (s : Z) : str :=
  if s <? 10 then [32; 48 + s] else [48 + s / 10; 48 + s mod 10].

(** The line that [brute_force] appends for candidate shift [s], given
    the decryption [d] of the text under [s]. *)
Definition listing_line (s : Z) (d : str) : str :=
  lit "Shift " ++ format_2d s ++ lit ": " ++ d.

(** [out] agrees with [text] at every position that does not hold one of
    the 52 ASCII letters (and has the same length). *)
Definition verbatim_outside_letters (text out : str) : Prop :=
  Forall2 (fun t e => is_letter t = false -> e = t) text out.

(** ** Utilities and the callers of the cipher *)

(** [clamp], lines 42-43: [max(smallest, min(n, largest))]. *)
Definition clamp (n smallest largest : Z) : Z :=
  Z.max smallest (Z.min n largest).

(** [c.isspace()] for one character, the test behind [str.strip()]:
    the code points CPython lists as whitespace. *)
Definition isspace (c : codepoint) : bool :=
  ((0x09 <=? c) && (c <=? 0x0D)) || ((0x1C <=? c) && (c <=? 0x20))
  || (c =? 0x85) || (c =? 0xA0) || (c =? 0x1680)
  || ((0x2000 <=? c) && (c <=? 0x200A))
  || (c =? 0x2028) || (c =? 0x2029) || (c =? 0x202F) || (c =? 0x205F)
  || (c =? 0x3000).

(** Dropping the leading, resp. trailing, characters that satisfy [p]. *)
Fixpoint lstrip_with (p : codepoint -> bool) (s : str) : str :=
  match s with
  | [] => []
  | c :: rest => if p c then lstrip_with p rest else s
  end.

Definition rstrip_with (p : codepoint -> bool) (s : str) : str :=
  rev (lstrip_with p (rev s)).

(** [s.rstrip('\n')] *)
Definition rstrip_newline (s : str) : str :=
  rstrip_with (fun c => c =? newline) s.

(** [s.strip()] *)
Definition strip (s : str) : str :=
  rstrip_with isspace (lstrip_with isspace s).

(** [a == b] on strings. *)
Definition str_eqb (a b : str) : bool :=
  if list_eq_dec Z.eq_dec a b then true else false.

(** What a call of [_run] (lines 247-261) leaves behind: either a warning
    box and nothing else, or a call of [_do_process] scheduled through
    [self.after] with these arguments. *)
Inductive run_outcome : Type :=
| NoInputWarning
| Scheduled (delay : Z) (txt mode : str) (shift_val : Z).

(** [_run], lines 247-261.  [widget_text] is what
    [self.input_text.get("1.0", "end")] returns, [mode] and [shift] what
    the two control variables hold. *)
Definition _run (widget_text mode : str) (shift : Z) : run_outcome :=
  let txt := rstrip_newline widget_text in
  match strip txt with
  | [] => NoInputWarning
  | _ :: _ =>
      let shift_val := clamp shift 0 25 in
      Scheduled 120 txt mode shift_val
  end.

(** [_do_process], lines 263-269: the value of [out], which the method
    then writes into the output box. *)
Definition _do_process (txt mode : str) (shift_val : Z) : result str :=
  if str_eqb mode (lit "Encrypt") then encrypt_text txt shift_val
  else if str_eqb mode (lit "Decrypt") then decrypt_text txt shift_val
  else brute_force txt.


(** ** The status-bar animation *)

(** [l[:k]], with Python's reading of a negative bound. *)
Definition slice_to {A : Type} (l : list A) (k : Z) : list A :=
  if k <? 0 then firstn (Z.to_nat (Z.of_nat (List.length l) + k)) l
  else firstn (Z.to_nat k) l.

(** What [animate_label_fade] does to its label, in order. *)
Inductive label_event : Type :=
| Configure (text : str)
| After (ms : Z).

Section Animation.

(** [reveal n i] stands for [int(n * (i / steps))], which the source
    computes in floating point. *)
Variable reveal : Z -> Z -> Z.

Variable text : str.
Variable duration : Z.

Definition steps : Z := 8.

Definition wait : Z := Z.max 10 (duration / steps).

(** The inner function [step], lines 81-86; [budget] bounds the number
    of calls it may still schedule. *)
Fixpoint step (budget : nat) (i : Z) : list label_event :=
  let chars := text in
  let show := join [] (map (fun c => [c])
                (slice_to chars (reveal (Z.of_nat (List.length chars)) i))) in
  Configure show ::
    (if i <? steps then
       match budget with
       | O => []
       | S budget' => After wait :: step budget' (i + 1)
       end
     else []).

(** [animate_label_fade], lines 74-87. *)
Definition animate_label_fade : list label_event :=
  Configure [] :: step (Z.to_nat steps) 1.

End Animation.

(** The texts a sequence of label events displays, in order. *)
Fixpoint displayed (events : list label_event) : list str :=
  match events with
  | [] => []
  | Configure t :: rest => t :: displayed rest
  | After _ :: rest => displayed rest
  end.


(** The exact value of [n * i / 8], rounded down. *)
Definition exact_reveal (n i : Z) : Z := n * i / 8.

(** ** Basic facts about the builtins *)

Lemma bind_Ok {A B : Type} (a : A) (k : A -> result B) :
  bind (Ok a) k = k a.
Proof. reflexivity. Qed.

Lemma str_le_single (x y : codepoint) : str_le [x] [y] = (x <=? y).
Proof.
  simpl. destruct (Z.ltb_spec x y), (Z.eqb_spec x y), (Z.leb_spec x y);
    simpl; try reflexivity; lia.
Qed.

Lemma chr_valid (i : Z) : 0 <= i < 0x110000 -> chr i = Ok [i].
Proof.
  intros H. unfold chr, valid_codepoint.
  destruct (Z.leb_spec 0 i), (Z.ltb_spec i 0x110000); simpl;
    try reflexivity; lia.
Qed.

Lemma mod_alphabet_bound (n : Z) : 0 <= n mod ALPHABET_SIZE <= 25.
Proof.
  unfold ALPHABET_SIZE.
  pose proof (Z.mod_pos_bound n 26 ltac:(lia)). lia.
Qed.

Lemma is_upper_range (c : codepoint) : is_upper c = true <-> 65 <= c <= 90.
Proof. unfold is_upper. rewrite andb_true_iff, !Z.leb_le. tauto. Qed.

Lemma is_lower_range (c : codepoint) : is_lower c = true <-> 97 <= c <= 122.
Proof. unfold is_lower. rewrite andb_true_iff, !Z.leb_le. tauto. Qed.

Lemma is_upper_false (c : codepoint) : is_upper c = false <-> c < 65 \/ 90 < c.
Proof. unfold is_upper. rewrite andb_false_iff, !Z.leb_gt. tauto. Qed.

Lemma is_lower_false (c : codepoint) : is_lower c = false <-> c < 97 \/ 122 < c.
Proof. unfold is_lower. rewrite andb_false_iff, !Z.leb_gt. tauto. Qed.

Lemma upper_not_lower (c : codepoint) : is_upper c = true -> is_lower c = false.
Proof. rewrite is_upper_range, is_lower_false. lia. Qed.

(** ** [shift_char] on a single character *)

Lemma shift_char_single (c : codepoint) (shift : Z) :
  shift_char [c] shift = Ok [shift_codepoint shift c].
Proof.
  unfold shift_char, shift_codepoint.
  change (lit "A") with [65]. change (lit "Z") with [90].
  change (lit "a") with [97]. change (lit "z") with [122].
  rewrite !str_le_single.
  fold (is_upper c). fold (is_lower c).
  destruct (is_upper c).
  - simpl. apply chr_valid.
    pose proof (mod_alphabet_bound (c - 65 + shift)). lia.
  - destruct (is_lower c).
    + simpl. apply chr_valid.
      pose proof (mod_alphabet_bound (c - 97 + shift)). lia.
    + reflexivity.
Qed.

Lemma shift_codepoint_upper (shift : Z) (c : codepoint) :
  is_upper c = true -> is_upper (shift_codepoint shift c) = true.
Proof.
  intros H. unfold shift_codepoint. rewrite H.
  apply is_upper_range.
  pose proof (mod_alphabet_bound (c - 65 + shift)). lia.
Qed.

Lemma shift_codepoint_lower (shift : Z) (c : codepoint) :
  is_lower c = true -> is_lower (shift_codepoint shift c) = true.
Proof.
  intros H. unfold shift_codepoint.
  destruct (is_upper c) eqn:U.
  - apply upper_not_lower in U. congruence.
  - rewrite H. apply is_lower_range.
    pose proof (mod_alphabet_bound (c - 97 + shift)). lia.
Qed.

Lemma shift_codepoint_other (shift : Z) (c : codepoint) :
  is_letter c = false -> shift_codepoint shift c = c.
Proof.
  unfold is_letter, shift_codepoint. intros H.
  apply orb_false_iff in H. destruct H as [U L]. now rewrite U, L.
Qed.

Lemma shift_codepoint_inverse (shift : Z) (c : codepoint) :
  shift_codepoint (- shift) (shift_codepoint shift c) = c.
Proof.
  destruct (is_upper c) eqn:U; [| destruct (is_lower c) eqn:L].
  - pose proof (shift_codepoint_upper shift c U) as U'.
    unfold shift_codepoint at 1. rewrite U'.
    unfold shift_codepoint. rewrite U. unfold ALPHABET_SIZE.
    replace ((c - 65 + shift) mod 26 + 65 - 65 + - shift)
      with ((c - 65 + shift) mod 26 - shift) by lia.
    rewrite Zminus_mod_idemp_l.
    replace (c - 65 + shift - shift) with (c - 65) by lia.
    apply is_upper_range in U. rewrite Z.mod_small; lia.
  - pose proof (shift_codepoint_lower shift c L) as L'.
    assert (U' : is_upper (shift_codepoint shift c) = false).
    { destruct (is_upper (shift_codepoint shift c)) eqn:E; [| reflexivity].
      apply upper_not_lower in E. congruence. }
    unfold shift_codepoint at 1. rewrite U', L'.
    unfold shift_codepoint. rewrite U, L. unfold ALPHABET_SIZE.
    replace ((c - 97 + shift) mod 26 + 97 - 97 + - shift)
      with ((c - 97 + shift) mod 26 - shift) by lia.
    rewrite Zminus_mod_idemp_l.
    replace (c - 97 + shift - shift) with (c - 97) by lia.
    apply is_lower_range in L. rewrite Z.mod_small; lia.
  - assert (N : is_letter c = false) by (unfold is_letter; now rewrite U, L).
    rewrite (shift_codepoint_other shift c N).
    apply shift_codepoint_other, N.
Qed.

Lemma shift_codepoint_mod (shift : Z) (c : codepoint) :
  shift_codepoint (shift mod 26) c = shift_codepoint shift c.
Proof.
  unfold shift_codepoint, ALPHABET_SIZE.
  now rewrite !Z.add_mod_idemp_r by lia.
Qed.

Lemma shift_codepoint_zero (c : codepoint) : shift_codepoint 0 c = c.
Proof.
  unfold shift_codepoint, ALPHABET_SIZE.
  destruct (is_upper c) eqn:U; [| destruct (is_lower c) eqn:L].
  - apply is_upper_range in U. rewrite Z.add_0_r, Z.mod_small; lia.
  - apply is_lower_range in L. rewrite Z.add_0_r, Z.mod_small; lia.
  - reflexivity.
Qed.

(** ** [encrypt_text] as a character-wise map *)

Lemma join_empty_singletons (l : list codepoint) :
  join [] (map (fun c => [c]) l) = l.
Proof.
  induction l as [| c l IH]; [reflexivity |].
  destruct l as [| c' l']; [reflexivity |].
  change (join [] (map (fun c => [c]) (c :: c' :: l')))
    with (c :: join [] (map (fun c => [c]) (c' :: l'))).
  now rewrite IH.
Qed.

Lemma mapM_shift_char (text : str) (shift : Z) :
  mapM (fun c => shift_char [c] shift) text
  = Ok (map (fun c => [shift_codepoint shift c]) text).
Proof.
  induction text as [| c text IH]; [reflexivity |].
  simpl. rewrite shift_char_single, IH. reflexivity.
Qed.

Lemma encrypt_text_map (text : str) (shift : Z) :
  encrypt_text text shift = Ok (map (shift_codepoint shift) text).
Proof.
  unfold encrypt_text. rewrite mapM_shift_char, bind_Ok.
  rewrite <- (map_map (shift_codepoint shift) (fun c => [c])).
  now rewrite join_empty_singletons.
Qed.

Lemma decrypt_text_map (text : str) (shift : Z) :
  decrypt_text text shift = Ok (map (shift_codepoint (- shift)) text).
Proof. apply encrypt_text_map. Qed.

Lemma map_verbatim_outside_letters (text : str) (shift : Z) :
  verbatim_outside_letters text (map (shift_codepoint shift) text).
Proof.
  induction text as [| c text IH]; constructor; [| exact IH].
  apply shift_codepoint_other.
Qed.

(** ** The brute-force listing *)

Lemma brute_force_loop_lines (text : str) (ss : list Z) (lines : list str) :
  brute_force_loop text ss lines
  = Ok (lines ++
        map (fun s => listing_line s (map (shift_codepoint (- s)) text)) ss).
Proof.
  revert lines. induction ss as [| s ss IH]; intros lines; simpl.
  - now rewrite app_nil_r.
  - rewrite decrypt_text_map, bind_Ok, IH, <- app_assoc. reflexivity.
Qed.

Lemma brute_force_join (text : str) :
  brute_force text
  = Ok (join [newline]
          (map (fun s => listing_line s (map (shift_codepoint (- s)) text))
               (range ALPHABET_SIZE))).
Proof.
  unfold brute_force. rewrite brute_force_loop_lines, bind_Ok. reflexivity.
Qed.

Lemma format_2d_two_columns (s : Z) :
  0 <= s <= 25 -> format_2d s = two_columns s.
Proof.
  intros H.
  assert (E : exists n, (n < 26)%nat /\ s = Z.of_nat n)
    by (exists (Z.to_nat s); lia).
  destruct E as (n & Hn & ->).
  do 26 (destruct n as [| n]; [vm_compute; reflexivity |]). lia.
Qed.

Lemma Forall2_map_r {A B : Type} (P : A -> B -> Prop) (f : A -> B) (l : list A) :
  (forall a, In a l -> P a (f a)) -> Forall2 P l (map f l).
Proof.
  induction l as [| a l IH]; intros H; constructor.
  - apply H. now left.
  - apply IH. intros b Hb. apply H. now right.
Qed.

Lemma in_range_alphabet (s : Z) : In s (range ALPHABET_SIZE) -> 0 <= s <= 25.
Proof. intros H. vm_compute in H. lia. Qed.

(** ** Alphabets and positions *)

Lemma index_of_Some (c : codepoint) (alphabet : str) (i : Z) :
  index_of c alphabet = Some i ->
  0 <= i /\ nth_error alphabet (Z.to_nat i) = Some c.
Proof.
  revert i. induction alphabet as [| x rest IH]; intros i; simpl.
  - discriminate.
  - destruct (Z.eqb_spec x c) as [-> | Hne].
    + intros [= <-]. split; [lia | reflexivity].
    + destruct (index_of c rest) as [j |]; simpl; [| discriminate].
      intros [= <-]. destruct (IH j eq_refl) as [Hj Hn].
      split; [lia |].
      replace (Z.to_nat (Z.succ j)) with (S (Z.to_nat j)) by lia.
      exact Hn.
Qed.

Lemma index_of_None (c : codepoint) (alphabet : str) :
  index_of c alphabet = None -> ~ In c alphabet.
Proof.
  induction alphabet as [| x rest IH]; simpl; [tauto |].
  destruct (Z.eqb_spec x c) as [-> | Hne]; [discriminate |].
  destruct (index_of c rest); simpl; [discriminate |].
  intros _ [H | H]; [congruence | now apply IH].
Qed.

Lemma in_UPPERCASE (c : codepoint) : In c UPPERCASE <-> is_upper c = true.
Proof.
  rewrite is_upper_range. split; intros H; [vm_compute in H | vm_compute]; lia.
Qed.

Lemma in_LOWERCASE (c : codepoint) : In c LOWERCASE <-> is_lower c = true.
Proof.
  rewrite is_lower_range. split; intros H; [vm_compute in H | vm_compute]; lia.
Qed.

Lemma nth_error_UPPERCASE (n : nat) (c : codepoint) :
  nth_error UPPERCASE n = Some c -> (n < 26)%nat /\ c = Z.of_nat n + 65.
Proof.
  do 26 (destruct n as [| n]; [intros [= <-]; split; [lia | reflexivity] |]).
  destruct n; discriminate.
Qed.

Lemma nth_error_LOWERCASE (n : nat) (c : codepoint) :
  nth_error LOWERCASE n = Some c -> (n < 26)%nat /\ c = Z.of_nat n + 97.
Proof.
  do 26 (destruct n as [| n]; [intros [= <-]; split; [lia | reflexivity] |]).
  destruct n; discriminate.
Qed.

Lemma letter_at_UPPERCASE (k : Z) :
  0 <= k <= 25 -> letter_at UPPERCASE k = Some (k + 65).
Proof.
  intros H. unfold letter_at.
  destruct (Z.ltb_spec k 0); [lia |].
  assert (E : exists n, (n < 26)%nat /\ k = Z.of_nat n)
    by (exists (Z.to_nat k); lia).
  destruct E as (n & Hn & ->).
  do 26 (destruct n as [| n]; [reflexivity |]). lia.
Qed.

Lemma letter_at_LOWERCASE (k : Z) :
  0 <= k <= 25 -> letter_at LOWERCASE k = Some (k + 97).
Proof.
  intros H. unfold letter_at.
  destruct (Z.ltb_spec k 0); [lia |].
  assert (E : exists n, (n < 26)%nat /\ k = Z.of_nat n)
    by (exists (Z.to_nat k); lia).
  destruct E as (n & Hn & ->).
  do 26 (destruct n as [| n]; [reflexivity |]). lia.
Qed.

Lemma index_of_UPPERCASE (c : codepoint) (i : Z) :
  index_of c UPPERCASE = Some i -> is_upper c = true /\ i = c - 65.
Proof.
  intros H. apply index_of_Some in H. destruct H as [Hi Hn].
  apply nth_error_UPPERCASE in Hn. destruct Hn as [Hlt ->].
  split; [apply is_upper_range |]; lia.
Qed.

Lemma index_of_LOWERCASE (c : codepoint) (i : Z) :
  index_of c LOWERCASE = Some i -> is_lower c = true /\ i = c - 97.
Proof.
  intros H. apply index_of_Some in H. destruct H as [Hi Hn].
  apply nth_error_LOWERCASE in Hn. destruct Hn as [Hlt ->].
  split; [apply is_lower_range |]; lia.
Qed.

(** ** Splitting the listing back into lines *)

Lemma split_on_no_sep (sep : codepoint) (p : str) :
  ~ In sep p -> split_on sep p = [p].
Proof.
  induction p as [| c p IH]; intros H; [reflexivity |].
  simpl. destruct (Z.eqb_spec c sep) as [-> | Hne].
  - exfalso. apply H. now left.
  - rewrite IH; [reflexivity |]. intros Hin. apply H. now right.
Qed.

Lemma split_on_app (sep : codepoint) (p q : str) :
  ~ In sep p -> split_on sep (p ++ sep :: q) = p :: split_on sep q.
Proof.
  induction p as [| c p IH]; intros H; simpl.
  - now rewrite Z.eqb_refl.
  - destruct (Z.eqb_spec c sep) as [-> | Hne].
    + exfalso. apply H. now left.
    + rewrite IH; [reflexivity |]. intros Hin. apply H. now right.
Qed.

Lemma split_on_join (sep : codepoint) (parts : list str) :
  parts <> [] ->
  Forall (fun p => ~ In sep p) parts ->
  split_on sep (join [sep] parts) = parts.
Proof.
  induction parts as [| p rest IH]; intros Hne Hall; [congruence |].
  inversion Hall as [| ? ? Hp Hrest]; subst.
  destruct rest as [| q rest'].
  - simpl. now apply split_on_no_sep.
  - change (join [sep] (p :: q :: rest'))
      with (p ++ sep :: join [sep] (q :: rest')).
    rewrite split_on_app by exact Hp.
    rewrite IH; [reflexivity | discriminate | exact Hrest].
Qed.

Lemma shift_codepoint_newline (shift : Z) (c : codepoint) :
  shift_codepoint shift c = newline -> c = newline.
Proof.
  unfold newline. intros H.
  destruct (is_upper c) eqn:U.
  - pose proof (shift_codepoint_upper shift c U) as U'.
    rewrite H in U'. discriminate.
  - destruct (is_lower c) eqn:L.
    + pose proof (shift_codepoint_lower shift c L) as L'.
      rewrite H in L'. discriminate.
    + rewrite shift_codepoint_other in H; [exact H |].
      unfold is_letter. now rewrite U, L.
Qed.

Lemma listing_line_no_newline (text : str) (s : Z) :
  0 <= s <= 25 ->
  ~ In newline text ->
  ~ In newline (listing_line s (map (shift_codepoint (- s)) text)).
Proof.
  intros Hs HT. unfold listing_line.
  rewrite format_2d_two_columns by exact Hs.
  rewrite !in_app_iff. intros [H | [H | [H | H]]].
  - vm_compute in H. lia.
  - unfold two_columns, newline in H.
    pose proof (Z.mod_pos_bound s 10 ltac:(lia)).
    assert (0 <= s / 10) by (apply Z.div_pos; lia).
    destruct (s <? 10); cbn [In] in H; lia.
  - vm_compute in H. lia.
  - apply in_map_iff in H. destruct H as (c & Hc & Hin).
    apply shift_codepoint_newline in Hc. subst c. contradiction.
Qed.

(** ** Concrete runs *)

Example encrypt_ABC_1 : encrypt_text (lit "ABC") 1 = Ok (lit "BCD").
Proof. reflexivity. Qed.

Example encrypt_XYZ_3 : encrypt_text (lit "XYZ") 3 = Ok (lit "ABC").
Proof. reflexivity. Qed.

Example encrypt_abc_1 : encrypt_text (lit "abc") 1 = Ok (lit "bcd").
Proof. reflexivity. Qed.

Example decrypt_BCD_1 : decrypt_text (lit "BCD") 1 = Ok (lit "ABC").
Proof. reflexivity. Qed.

Example encrypt_hello_world :
  encrypt_text (lit "Hello, World!") 5 = Ok (lit "Mjqqt, Btwqi!").
Proof. reflexivity. Qed.

Example encrypt_negative_shift :
  encrypt_text (lit "abc") (-1) = Ok (lit "zab").
Proof. reflexivity. Qed.

(** Outside its callers' use, on a string of two characters, the first
    comparison succeeds and [ord] raises. *)
Example shift_char_two_characters :
  shift_char (lit "AB") 1 = Raise TypeError.
Proof. reflexivity. Qed.

Example format_2d_runs :
  format_2d 3 = lit " 3" /\ format_2d 25 = lit "25" /\ format_2d 0 = lit " 0".
Proof. repeat split. Qed.

(** * Properties stated by the specification *)

(** C1 (round-trip law): for every text [T] and every integer shift [s],
    encrypting [T] with [s] and decrypting the result with [s] raises no
    exception and returns [T]. *)
Theorem decrypt_encrypt_round_trip (T : str) (s : Z) :
  (E <- encrypt_text T s ;; decrypt_text E s) = Ok T.
Proof.
  rewrite encrypt_text_map, bind_Ok, decrypt_text_map, map_map.
  f_equal. rewrite <- (map_id T) at 2.
  apply map_ext. intros c. apply shift_codepoint_inverse.
Qed.

(** C2 (shift_char): for every single character [c] and every integer
    [shift], negative or beyond 25 included: when [c] is the letter at
    position [i] of the uppercase alphabet, the reduced index
    [(i + shift) mod 26] lies in [0, 25] and [shift_char] returns the
    uppercase letter at that position; likewise for the lowercase
    alphabet; a character of neither alphabet is returned unchanged. *)
Theorem shift_char_alphabet_position (c : codepoint) (shift : Z) :
  (forall i, index_of c UPPERCASE = Some i ->
     let k := (i + shift) mod 26 in
     0 <= k <= 25 /\
     exists d, letter_at UPPERCASE k = Some d /\ shift_char [c] shift = Ok [d])
  /\ (forall i, index_of c LOWERCASE = Some i ->
     let k := (i + shift) mod 26 in
     0 <= k <= 25 /\
     exists d, letter_at LOWERCASE k = Some d /\ shift_char [c] shift = Ok [d])
  /\ (index_of c UPPERCASE = None -> index_of c LOWERCASE = None ->
      shift_char [c] shift = Ok [c]).
Proof.
  repeat split.
  - apply (mod_alphabet_bound (i + shift)).
  - apply (mod_alphabet_bound (i + shift)).
  - apply index_of_UPPERCASE in H. destruct H as [U ->].
    exists ((c - 65 + shift) mod 26 + 65). split.
    + apply letter_at_UPPERCASE, (mod_alphabet_bound (c - 65 + shift)).
    + rewrite shift_char_single. unfold shift_codepoint. now rewrite U.
  - apply (mod_alphabet_bound (i + shift)).
  - apply (mod_alphabet_bound (i + shift)).
  - apply index_of_LOWERCASE in H. destruct H as [L ->].
    exists ((c - 97 + shift) mod 26 + 97). split.
    + apply letter_at_LOWERCASE, (mod_alphabet_bound (c - 97 + shift)).
    + rewrite shift_char_single. unfold shift_codepoint.
      destruct (is_upper c) eqn:U.
      * apply upper_not_lower in U. congruence.
      * now rewrite L.
  - intros HU HL. rewrite shift_char_single. f_equal. f_equal.
    apply shift_codepoint_other. unfold is_letter.
    apply index_of_None in HU, HL.
    rewrite in_UPPERCASE in HU. rewrite in_LOWERCASE in HL.
    destruct (is_upper c), (is_lower c); simpl; congruence.
Qed.

Lemma shift_char_alphabet_position_witness :
  letter_at UPPERCASE ((25 + -27) mod 26) = Some 89
  /\ shift_char (lit "Z") (-27) = Ok (lit "Y")
  /\ shift_char (lit "7") 1000 = Ok (lit "7").
Proof.
  destruct (shift_char_alphabet_position 90 (-27)) as (HU & _ & _).
  destruct (HU 25 eq_refl) as (_ & d & Hd & Hs).
  destruct (shift_char_alphabet_position 55 1000) as (_ & _ & HN).
  split; [reflexivity |]. split; [| exact (HN eq_refl eq_refl)].
  assert (Ed : d = 89) by (vm_compute in Hd; congruence).
  subst d. exact Hs.
Defined.

(** C3 (periodicity): for every text [T] and every integer [s],
    encrypting with [s] and encrypting with [s mod 26] give the same
    result; this holds for the floored modulus (Python's [%]) and for the
    truncated remainder alike. *)
Theorem encrypt_text_periodic (T : str) (s : Z) :
  encrypt_text T s = encrypt_text T (s mod 26)
  /\ encrypt_text T s = encrypt_text T (Z.rem s 26).
Proof.
  rewrite !encrypt_text_map. split; f_equal; apply map_ext; intros c.
  - symmetry. apply shift_codepoint_mod.
  - rewrite <- (shift_codepoint_mod s), <- (shift_codepoint_mod (Z.rem s 26)).
    f_equal. rewrite (Z.quot_rem' s 26) at 1.
    rewrite Z.add_comm, Z.mul_comm. apply Z.mod_add. lia.
Qed.

(** C4 (identity shift): for every text [T], encrypting with shift 0
    returns [T]. *)
Theorem encrypt_text_zero (T : str) : encrypt_text T 0 = Ok T.
Proof.
  rewrite encrypt_text_map. f_equal. rewrite <- (map_id T) at 2.
  apply map_ext. intros c. apply shift_codepoint_zero.
Qed.

(** C5 (character-wise transform): for every text [T] and every shift,
    [encrypt_text] returns a text of the same length whose character at
    each position is what [shift_char] returns for the character of [T]
    at that position, and which equals that character of [T] whenever it
    is not a letter. *)
Theorem encrypt_text_positionwise (T : str) (shift : Z) :
  exists E,
    encrypt_text T shift = Ok E
    /\ List.length E = List.length T
    /\ Forall2 (fun t e => shift_char [t] shift = Ok [e]
                           /\ (is_letter t = false -> e = t)) T E.
Proof.
  exists (map (shift_codepoint shift) T). split; [| split].
  - apply encrypt_text_map.
  - apply length_map.
  - apply Forall2_map_r. intros t _. split.
    + apply shift_char_single.
    + apply shift_codepoint_other.
Qed.

Lemma encrypt_text_positionwise_witness :
  exists E,
    encrypt_text (lit "!") 5 = Ok E
    /\ List.length E = List.length (lit "!")
    /\ E = lit "!".
Proof.
  destruct (encrypt_text_positionwise (lit "!") 5) as (E & HE & HL & HF).
  exists E. split; [exact HE |]. split; [exact HL |].
  inversion HF as [| t e T' E' [_ He] HF' ]; subst.
  inversion HF'; subst.
  rewrite (He eq_refl). reflexivity.
Defined.

(** C6: for every text [T] and every shift [s], [decrypt_text T s] is
    [encrypt_text T (- s)]. *)
Theorem decrypt_text_is_encrypt_negated (T : str) (s : Z) :
  decrypt_text T s = encrypt_text T (- s).
Proof. reflexivity. Qed.

(** C7 (brute-force listing): for every text [T], [brute_force] returns
    26 lines joined by single newline characters, nothing after the last
    one; the lines correspond, in order, to the shifts 0, 1, ..., 25, and
    the line of shift [s] is "Shift ", then [s] right-aligned in two
    columns, then ": ", then [decrypt_text T s].  When [T] itself holds
    no newline, splitting the result at newlines gives back exactly these
    26 lines.  The listing for "Khoor" has the line "Shift  3: Hello". *)
Theorem brute_force_listing (T : str) :
  exists lines,
    brute_force T = Ok (join [newline] lines)
    /\ List.length lines = 26%nat
    /\ Forall2
         (fun s line =>
            exists d, decrypt_text T s = Ok d
                      /\ line = lit "Shift " ++ two_columns s ++ lit ": " ++ d)
         (map Z.of_nat (seq 0 26)) lines
    /\ (~ In newline T -> split_on newline (join [newline] lines) = lines)
    /\ exists out,
         brute_force (lit "Khoor") = Ok out
         /\ In (lit "Shift  3: Hello") (split_on newline out).
Proof.
  exists (map (fun s => listing_line s (map (shift_codepoint (- s)) T))
              (range ALPHABET_SIZE)).
  split; [apply brute_force_join |].
  split; [reflexivity |].
  split; [| split].
  - change (map Z.of_nat (seq 0 26)) with (range ALPHABET_SIZE).
    apply Forall2_map_r. intros s Hs. apply in_range_alphabet in Hs.
    exists (map (shift_codepoint (- s)) T). split.
    + apply decrypt_text_map.
    + unfold listing_line. now rewrite format_2d_two_columns.
  - intros HT. apply split_on_join.
    + discriminate.
    + apply Forall_forall. intros line Hline.
      apply in_map_iff in Hline. destruct Hline as (s & <- & Hs).
      apply listing_line_no_newline; [apply in_range_alphabet, Hs | exact HT].
  - eexists. split; [vm_compute; reflexivity |].
    vm_compute. do 3 right. left. reflexivity.
Qed.

Lemma brute_force_listing_witness :
  exists lines,
    brute_force (lit "Khoor") = Ok (join [newline] lines)
    /\ List.length lines = 26%nat
    /\ split_on newline (join [newline] lines) = lines.
Proof.
  destruct (brute_force_listing (lit "Khoor")) as (lines & H1 & H2 & _ & H4 & _).
  exists lines. split; [exact H1 |]. split; [exact H2 |].
  apply H4. intros H. vm_compute in H. lia.
Defined.

(** C8 (totality and determinism): for every text, the empty one
    included, and every integer shift, [encrypt_text], [decrypt_text] and
    [brute_force] return a value instead of raising, and two calls on
    equal arguments return equal values. *)
Theorem cipher_total_deterministic (T T' : str) (s s' : Z) :
  T = T' -> s = s' ->
  exists E D B,
    encrypt_text T s = Ok E /\ encrypt_text T' s' = Ok E
    /\ decrypt_text T s = Ok D /\ decrypt_text T' s' = Ok D
    /\ brute_force T = Ok B /\ brute_force T' = Ok B.
Proof.
  intros <- <-.
  exists (map (shift_codepoint s) T), (map (shift_codepoint (- s)) T).
  eexists. repeat split.
  - apply encrypt_text_map.
  - apply encrypt_text_map.
  - apply decrypt_text_map.
  - apply decrypt_text_map.
  - apply brute_force_join.
  - apply brute_force_join.
Qed.

Lemma cipher_total_deterministic_witness :
  exists E D B,
    encrypt_text [] 3 = Ok E /\ encrypt_text [] 3 = Ok E
    /\ decrypt_text [] 3 = Ok D /\ decrypt_text [] 3 = Ok D
    /\ brute_force [] = Ok B /\ brute_force [] = Ok B.
Proof. exact (cipher_total_deterministic [] [] 3 3 eq_refl eq_refl). Defined.

(** C9 (case preservation): for every character [c] and every integer
    shift, [shift_char] returns a single character, which is an uppercase
    Latin letter when [c] is one, a lowercase Latin letter when [c] is
    one, and [c] itself when [c] is neither. *)
Theorem shift_char_preserves_case (c : codepoint) (shift : Z) :
  exists d,
    shift_char [c] shift = Ok [d]
    /\ (is_upper c = true -> is_upper d = true)
    /\ (is_lower c = true -> is_lower d = true)
    /\ (is_letter c = false -> d = c).
Proof.
  exists (shift_codepoint shift c). split; [apply shift_char_single |].
  split; [apply shift_codepoint_upper |].
  split; [apply shift_codepoint_lower | apply shift_codepoint_other].
Qed.

Lemma shift_char_preserves_case_witness :
  (exists d, shift_char (lit "Y") 5 = Ok [d] /\ is_upper d = true)
  /\ (exists d, shift_char (lit "y") (-30) = Ok [d] /\ is_lower d = true)
  /\ shift_char (lit " ") 7 = Ok (lit " ").
Proof.
  destruct (shift_char_preserves_case 89 5) as (d1 & H1 & U1 & _ & _).
  destruct (shift_char_preserves_case 121 (-30)) as (d2 & H2 & _ & L2 & _).
  destruct (shift_char_preserves_case 32 7) as (d3 & H3 & _ & _ & N3).
  split; [exists d1; split; [exact H1 | exact (U1 eq_refl)] |].
  split; [exists d2; split; [exact H2 | exact (L2 eq_refl)] |].
  rewrite (N3 eq_refl) in H3. exact H3.
Defined.

(** C10 (only ASCII letters move): the characters that [is_letter]
    accepts are exactly the 52 of 'A'-'Z' and 'a'-'z'; [shift_char]
    returns every other character unchanged, among them the accented
    letters U+00C9 and U+00E4, so a character it changes is one of the
    52; and [encrypt_text], [decrypt_text] and every line of
    [brute_force] carry each such character of the text over to the same
    position. *)
Theorem only_ascii_letters_shifted (T : str) (c : codepoint) (shift : Z) :
  (is_letter c = true <-> In c (UPPERCASE ++ LOWERCASE))
  /\ List.length (UPPERCASE ++ LOWERCASE) = 52%nat
  /\ (is_letter c = false -> shift_char [c] shift = Ok [c])
  /\ (shift_char [c] shift <> Ok [c] -> is_letter c = true)
  /\ shift_char [201] shift = Ok [201]
  /\ shift_char [228] shift = Ok [228]
  /\ (exists E, encrypt_text T shift = Ok E /\ verbatim_outside_letters T E)
  /\ (exists D, decrypt_text T shift = Ok D /\ verbatim_outside_letters T D)
  /\ (exists lines,
        brute_force T = Ok (join [newline] lines)
        /\ Forall2
             (fun s line =>
                exists D, line = listing_line s D
                          /\ verbatim_outside_letters T D)
             (range ALPHABET_SIZE) lines).
Proof.
  assert (HN : is_letter c = false -> shift_char [c] shift = Ok [c]).
  { intros H. rewrite shift_char_single. f_equal. f_equal.
    now apply shift_codepoint_other. }
  split; [| split; [reflexivity | split; [exact HN | split] ] ].
  - unfold is_letter. rewrite in_app_iff, orb_true_iff.
    now rewrite in_UPPERCASE, in_LOWERCASE.
  - intros H. destruct (is_letter c); [reflexivity |].
    exfalso. apply H, HN. reflexivity.
  - split; [rewrite shift_char_single; reflexivity |].
    split; [rewrite shift_char_single; reflexivity |].
    split; [| split].
    + exists (map (shift_codepoint shift) T). split.
      * apply encrypt_text_map.
      * apply map_verbatim_outside_letters.
    + exists (map (shift_codepoint (- shift)) T). split.
      * apply decrypt_text_map.
      * apply map_verbatim_outside_letters.
    + eexists. split; [apply brute_force_join |].
      apply Forall2_map_r. intros s _.
      exists (map (shift_codepoint (- s)) T). split; [reflexivity |].
      apply map_verbatim_outside_letters.
Qed.

Lemma only_ascii_letters_shifted_witness :
  shift_char [233] 13 = Ok [233]
  /\ exists E, encrypt_text [233] 13 = Ok E /\ E = [233].
Proof.
  destruct (only_ascii_letters_shifted [233] 233 13)
    as (_ & _ & HN & _ & _ & _ & (E & HE & HV) & _).
  split; [exact (HN eq_refl) |].
  exists E. split; [exact HE |].
  inversion HV as [| t e T' E' He HV' ]; subst.
  inversion HV'; subst.
  rewrite (He eq_refl). reflexivity.
Defined.

(** * Further properties of the cipher *)

Lemma shift_codepoint_compose (a b : Z) (c : codepoint) :
  shift_codepoint b (shift_codepoint a c) = shift_codepoint (a + b) c.
Proof.
  destruct (is_upper c) eqn:U; [| destruct (is_lower c) eqn:L].
  - pose proof (shift_codepoint_upper a c U) as U'.
    unfold shift_codepoint at 1. rewrite U'.
    unfold shift_codepoint. rewrite U. unfold ALPHABET_SIZE.
    replace ((c - 65 + a) mod 26 + 65 - 65 + b)
      with ((c - 65 + a) mod 26 + b) by lia.
    rewrite Z.add_mod_idemp_l by lia.
    f_equal. f_equal. lia.
  - pose proof (shift_codepoint_lower a c L) as L'.
    assert (U' : is_upper (shift_codepoint a c) = false).
    { destruct (is_upper (shift_codepoint a c)) eqn:E; [| reflexivity].
      apply upper_not_lower in E. congruence. }
    unfold shift_codepoint at 1. rewrite U', L'.
    unfold shift_codepoint. rewrite U, L. unfold ALPHABET_SIZE.
    replace ((c - 97 + a) mod 26 + 97 - 97 + b)
      with ((c - 97 + a) mod 26 + b) by lia.
    rewrite Z.add_mod_idemp_l by lia.
    f_equal. f_equal. lia.
  - assert (N : is_letter c = false) by (unfold is_letter; now rewrite U, L).
    now rewrite !(shift_codepoint_other _ c N).
Qed.

Lemma shift_codepoint_congruent (a b : Z) (c : codepoint) :
  a mod 26 = b mod 26 -> shift_codepoint a c = shift_codepoint b c.
Proof.
  intros H. rewrite <- (shift_codepoint_mod a), <- (shift_codepoint_mod b).
  now rewrite H.
Qed.

Lemma mod_add_cancel (x a b : Z) :
  (x + a) mod 26 = (x + b) mod 26 -> a mod 26 = b mod 26.
Proof.
  intros H.
  replace a with (x + a - x) by lia. replace b with (x + b - x) by lia.
  rewrite <- (Zminus_mod_idemp_l (x + a)), <- (Zminus_mod_idemp_l (x + b)).
  now rewrite H.
Qed.

Lemma shift_codepoint_letter_eq (a b : Z) (c : codepoint) :
  is_letter c = true ->
  shift_codepoint a c = shift_codepoint b c -> a mod 26 = b mod 26.
Proof.
  unfold is_letter, shift_codepoint, ALPHABET_SIZE. intros HL H.
  destruct (is_upper c).
  - apply (mod_add_cancel (c - 65)). lia.
  - simpl in HL. rewrite HL in H. apply (mod_add_cancel (c - 97)). lia.
Qed.

Lemma map_shift_codepoint_id (s : Z) (T : str) :
  s mod 26 = 0 -> map (shift_codepoint s) T = T.
Proof.
  intros H. rewrite <- (map_id T) at 2. apply map_ext. intros c.
  rewrite (shift_codepoint_congruent s 0 c) by exact H.
  apply shift_codepoint_zero.
Qed.


Lemma length_listing_line (s : Z) (d : str) :
  0 <= s <= 25 ->
  List.length (listing_line s d) = (10 + List.length d)%nat.
Proof.
  intros H. unfold listing_line.
  rewrite format_2d_two_columns by exact H.
  rewrite !length_app. unfold two_columns.
  destruct (s <? 10); reflexivity.
Qed.

Lemma length_join_uniform (sep : str) (m : nat) (p : str) (rest : list str) :
  Forall (fun q => List.length q = m) (p :: rest) ->
  (List.length (join sep (p :: rest)) + List.length sep
   = S (List.length rest) * (m + List.length sep))%nat.
Proof.
  revert p. induction rest as [| q rest IH]; intros p H.
  - inversion H; subst. simpl. lia.
  - inversion H as [| ? ? Hp Hrest]; subst.
    change (join sep (p :: q :: rest)) with (p ++ sep ++ join sep (q :: rest)).
    rewrite !length_app. specialize (IH q Hrest).
    cbn [List.length] in *. lia.
Qed.

Lemma map_shift_twice_id (a b : Z) (T : str) :
  (a + b) mod 26 = 0 ->
  map (fun c => shift_codepoint b (shift_codepoint a c)) T = T.
Proof.
  intros H. rewrite <- (map_id T) at 2. apply map_ext. intros c.
  rewrite shift_codepoint_compose.
  rewrite (shift_codepoint_congruent (a + b) 0 c) by exact H.
  apply shift_codepoint_zero.
Qed.

Lemma has_letter_In (T : str) :
  existsb is_letter T = true -> exists c, In c T /\ is_letter c = true.
Proof. intros H. apply existsb_exists in H. exact H. Qed.

(** X1 (shifts add up): encrypting with [a] and then with [b] is
    encrypting once with [a + b]. *)
Theorem encrypt_text_compose (T : str) (a b : Z) :
  (E <- encrypt_text T a ;; encrypt_text E b) = encrypt_text T (a + b).
Proof.
  rewrite !encrypt_text_map, bind_Ok, encrypt_text_map, map_map.
  f_equal. apply map_ext. intros c. apply shift_codepoint_compose.
Qed.

(** X2 (decrypt first): decrypting a text with [s] and encrypting the
    result with [s] gives the text back, so under every shift each text
    is the encryption of some text. *)
Theorem encrypt_decrypt_round_trip (T : str) (s : Z) :
  (D <- decrypt_text T s ;; encrypt_text D s) = Ok T.
Proof.
  rewrite decrypt_text_map, bind_Ok, encrypt_text_map, map_map.
  f_equal. apply map_shift_twice_id.
  replace (- s + s) with 0 by lia. reflexivity.
Qed.

(** X3 (no two texts collide): under a fixed shift, texts with the same
    encryption are equal. *)
Theorem encrypt_text_injective (T1 T2 : str) (s : Z) :
  encrypt_text T1 s = encrypt_text T2 s -> T1 = T2.
Proof.
  rewrite !encrypt_text_map. intros [= H].
  apply (f_equal (map (shift_codepoint (- s)))) in H.
  rewrite !map_map in H.
  rewrite !map_shift_twice_id in H; [exact H | |];
    replace (s + - s) with 0 by lia; reflexivity.
Qed.

Lemma encrypt_text_injective_witness :
  encrypt_text (lit "Hello") 7 = encrypt_text [72; 101; 108; 108; 111] 7
  /\ lit "Hello" = [72; 101; 108; 108; 111].
Proof.
  split; [reflexivity |].
  apply (encrypt_text_injective _ _ 7). reflexivity.
Defined.

(** X4 (piecewise encryption): encrypting a concatenation is
    concatenating the encryptions of the two parts. *)
Theorem encrypt_text_app (T1 T2 : str) (s : Z) :
  encrypt_text (T1 ++ T2) s
  = (E1 <- encrypt_text T1 s ;; E2 <- encrypt_text T2 s ;; Ok (E1 ++ E2)).
Proof.
  rewrite !encrypt_text_map, !bind_Ok. now rewrite map_app.
Qed.

(** X5 (which shifts agree): on a text that holds at least one of the 52
    letters, two shifts give the same encryption exactly when they are
    congruent modulo 26; in particular only the multiples of 26 leave
    such a text unchanged. *)
Theorem encrypt_text_same_iff_congruent (T : str) (a b : Z) :
  existsb is_letter T = true ->
  (encrypt_text T a = encrypt_text T b <-> a mod 26 = b mod 26)
  /\ (encrypt_text T a = Ok T <-> a mod 26 = 0).
Proof.
  intros HT. apply has_letter_In in HT. destruct HT as (c & Hin & Hc).
  assert (G : forall x y,
             encrypt_text T x = encrypt_text T y <-> x mod 26 = y mod 26).
  { intros x y. rewrite !encrypt_text_map. split.
    - intros [= H]. apply (shift_codepoint_letter_eq x y c Hc).
      exact (proj1 map_ext_in_iff H c Hin).
    - intros H. f_equal. apply map_ext. intros d.
      now apply shift_codepoint_congruent. }
  split; [apply G |].
  rewrite <- (G a 0). rewrite (encrypt_text_map T 0).
  rewrite (map_shift_codepoint_id 0 T eq_refl). reflexivity.
Qed.

Lemma encrypt_text_same_iff_congruent_witness :
  (encrypt_text (lit "x = 1") 3 = encrypt_text (lit "x = 1") 55
   <-> 3 mod 26 = 55 mod 26)
  /\ (encrypt_text (lit "x = 1") 52 = Ok (lit "x = 1") <-> 52 mod 26 = 0).
Proof.
  split.
  - exact (proj1 (encrypt_text_same_iff_congruent (lit "x = 1") 3 55 eq_refl)).
  - exact (proj2 (encrypt_text_same_iff_congruent (lit "x = 1") 52 0 eq_refl)).
Defined.


(** X7 (size of the listing): the brute-force listing of a text of [n]
    characters has [26 * n + 285] characters. *)
Theorem brute_force_length (T : str) :
  exists out,
    brute_force T = Ok out
    /\ List.length out = (26 * List.length T + 285)%nat.
Proof.
  eexists. split; [apply brute_force_join |].
  pose proof (length_join_uniform [newline] (10 + List.length T)
                (listing_line 0 (map (shift_codepoint (- 0)) T))
                (map (fun s => listing_line s (map (shift_codepoint (- s)) T))
                     (map Z.of_nat (seq 1 25)))) as H.
  change (listing_line 0 (map (shift_codepoint (- 0)) T)
          :: map (fun s => listing_line s (map (shift_codepoint (- s)) T))
               (map Z.of_nat (seq 1 25)))
    with (map (fun s => listing_line s (map (shift_codepoint (- s)) T))
              (range ALPHABET_SIZE)) in H.
  rewrite !length_map, length_seq in H. cbn [List.length] in H.
  assert (F : Forall (fun q => List.length q = (10 + List.length T)%nat)
                (map (fun s => listing_line s (map (shift_codepoint (- s)) T))
                     (range ALPHABET_SIZE))).
  { apply Forall_forall. intros q Hq. apply in_map_iff in Hq.
    destruct Hq as (s & <- & Hs). apply in_range_alphabet in Hs.
    rewrite length_listing_line by exact Hs. now rewrite length_map. }
  specialize (H F). lia.
Qed.

(** X8 (the cipher alphabet is a rotation): encrypting the alphabet with
    shift [s] moves its first [s mod 26] letters to the end, for the
    uppercase and for the lowercase alphabet. *)
Theorem encrypt_alphabet_rotates (s : Z) :
  encrypt_text UPPERCASE s
  = Ok (skipn (Z.to_nat (s mod 26)) UPPERCASE
        ++ firstn (Z.to_nat (s mod 26)) UPPERCASE)
  /\ encrypt_text LOWERCASE s
     = Ok (skipn (Z.to_nat (s mod 26)) LOWERCASE
           ++ firstn (Z.to_nat (s mod 26)) LOWERCASE).
Proof.
  pose proof (mod_alphabet_bound s) as Hk. unfold ALPHABET_SIZE in Hk.
  rewrite !encrypt_text_map.
  rewrite (map_ext _ _ (fun c => eq_sym (shift_codepoint_mod s c)) UPPERCASE).
  rewrite (map_ext _ _ (fun c => eq_sym (shift_codepoint_mod s c)) LOWERCASE).
  assert (E : exists n, (n < 26)%nat /\ s mod 26 = Z.of_nat n)
    by (exists (Z.to_nat (s mod 26)); lia).
  destruct E as (n & Hn & ->). rewrite Nat2Z.id.
  do 26 (destruct n as [| n]; [split; vm_compute; reflexivity |]). lia.
Qed.

(** X9 ([shift_char] off its intended domain): the empty string is
    returned as it is; a string of two or more characters raises
    [TypeError] when its first character is one of 'A'-'Y' or 'a'-'y',
    and is returned unchanged otherwise, a leading 'Z' or 'z' included. *)
Theorem shift_char_not_single (h h' : codepoint) (t : str) (shift : Z) :
  shift_char [] shift = Ok []
  /\ shift_char (h :: h' :: t) shift
     = if ((65 <=? h) && (h <=? 89)) || ((97 <=? h) && (h <=? 121))
       then Raise TypeError
       else Ok (h :: h' :: t).
Proof.
  split; [reflexivity |].
  unfold shift_char.
  change (lit "A") with [65]. change (lit "Z") with [90].
  change (lit "a") with [97]. change (lit "z") with [122].
  cbn [str_le ord bind]. rewrite !andb_true_r, !andb_false_r, !orb_false_r.
  destruct (Z.ltb_spec 65 h), (Z.eqb_spec 65 h), (Z.ltb_spec h 90),
    (Z.leb_spec 65 h), (Z.leb_spec h 89); try lia; cbn [orb andb];
    try reflexivity;
    destruct (Z.ltb_spec 97 h), (Z.eqb_spec 97 h), (Z.ltb_spec h 122),
      (Z.leb_spec 97 h), (Z.leb_spec h 121); try lia; reflexivity.
Qed.

(** X10 (decrypting is encrypting with the complement): decrypting with
    [s] gives what encrypting with [26 - s] gives. *)
Theorem decrypt_text_is_encrypt_complement (T : str) (s : Z) :
  decrypt_text T s = encrypt_text T (26 - s).
Proof.
  rewrite decrypt_text_map, encrypt_text_map. f_equal.
  apply map_ext. intros c. apply shift_codepoint_congruent.
  replace (26 - s) with (- s + 1 * 26) by lia.
  now rewrite Z.mod_add by lia.
Qed.

(** * Properties of [clamp] *)

(** X11 (clamping into a range): when the bounds are in order, the result
    lies between them; it is the lower bound below the range, the upper
    bound above it, and the number itself inside. *)
Theorem clamp_saturates (n smallest largest : Z) :
  smallest <= largest ->
  smallest <= clamp n smallest largest <= largest
  /\ (n < smallest -> clamp n smallest largest = smallest)
  /\ (smallest <= n <= largest -> clamp n smallest largest = n)
  /\ (largest < n -> clamp n smallest largest = largest).
Proof. unfold clamp. lia. Qed.

Lemma clamp_saturates_witness :
  0 <= clamp 30 0 25 <= 25 /\ clamp 30 0 25 = 25 /\ clamp (-4) 0 25 = 0.
Proof.
  destruct (clamp_saturates 30 0 25 ltac:(lia)) as (B & _ & _ & Hi).
  destruct (clamp_saturates (-4) 0 25 ltac:(lia)) as (_ & Lo & _ & _).
  split; [exact B |]. split; [apply Hi | apply Lo]; lia.
Defined.

(** X12 (bounds out of order): when the upper bound is below the lower
    one, [clamp] returns the lower bound whatever the number. *)
Theorem clamp_inverted_bounds (n smallest largest : Z) :
  largest < smallest -> clamp n smallest largest = smallest.
Proof. unfold clamp. lia. Qed.

Lemma clamp_inverted_bounds_witness : clamp 7 10 5 = 10.
Proof. apply clamp_inverted_bounds. lia. Defined.

(** X13 (clamping twice, clamping in order): clamping a clamped number
    changes nothing, and a larger number never clamps to a smaller
    result; neither needs the bounds to be in order. *)
Theorem clamp_idempotent_monotone (n m smallest largest : Z) :
  clamp (clamp n smallest largest) smallest largest = clamp n smallest largest
  /\ (n <= m -> clamp n smallest largest <= clamp m smallest largest).
Proof. unfold clamp. lia. Qed.

Lemma clamp_idempotent_monotone_witness :
  clamp (clamp 40 0 25) 0 25 = clamp 40 0 25 /\ clamp 3 0 25 <= clamp 40 0 25.
Proof.
  destruct (clamp_idempotent_monotone 40 40 0 25) as (I & _).
  destruct (clamp_idempotent_monotone 3 40 0 25) as (_ & M).
  split; [exact I | apply M; lia].
Defined.

(** * Stripping *)

Lemma lstrip_with_decompose (p : codepoint -> bool) (s : str) :
  exists t, s = t ++ lstrip_with p s /\ forallb p t = true.
Proof.
  induction s as [| c s IH].
  - exists []. split; reflexivity.
  - simpl. destruct (p c) eqn:Hc.
    + destruct IH as (t & Hs & Ht). exists (c :: t). split.
      * simpl. now rewrite <- Hs.
      * simpl. now rewrite Hc, Ht.
    + exists []. split; reflexivity.
Qed.

Lemma lstrip_with_nil_iff (p : codepoint -> bool) (s : str) :
  lstrip_with p s = [] <-> forallb p s = true.
Proof.
  induction s as [| c s IH]; simpl; [tauto |].
  destruct (p c); simpl; [exact IH |]. split; discriminate.
Qed.


Lemma lstrip_with_all_app (p : codepoint -> bool) (t s : str) :
  forallb p t = true -> lstrip_with p (t ++ s) = lstrip_with p s.
Proof.
  induction t as [| c t IH]; simpl; [reflexivity |].
  intros H. apply andb_true_iff in H. destruct H as [Hc Ht].
  rewrite Hc. now apply IH.
Qed.


Lemma lstrip_with_idempotent (p : codepoint -> bool) (s : str) :
  lstrip_with p (lstrip_with p s) = lstrip_with p s.
Proof.
  induction s as [| c s IH]; simpl; [reflexivity |].
  destruct (p c) eqn:Hc; [exact IH |]. simpl. now rewrite Hc.
Qed.

Lemma lstrip_with_map (p : codepoint -> bool) (f : codepoint -> codepoint) (s : str) :
  (forall c, p (f c) = p c) ->
  lstrip_with p (map f s) = map f (lstrip_with p s).
Proof.
  intros H. induction s as [| c s IH]; simpl; [reflexivity |].
  rewrite H. destruct (p c); [exact IH | reflexivity].
Qed.

Lemma forallb_rev (p : codepoint -> bool) (s : str) :
  forallb p (rev s) = forallb p s.
Proof.
  induction s as [| c s IH]; simpl; [reflexivity |].
  rewrite forallb_app, IH. simpl. rewrite andb_true_r. apply andb_comm.
Qed.

Lemma rstrip_with_decompose (p : codepoint -> bool) (s : str) :
  exists t, s = rstrip_with p s ++ t /\ forallb p t = true.
Proof.
  destruct (lstrip_with_decompose p (rev s)) as (t & Hs & Ht).
  exists (rev t). split.
  - unfold rstrip_with. rewrite <- rev_app_distr, <- Hs. now rewrite rev_involutive.
  - now rewrite forallb_rev.
Qed.

Lemma rstrip_with_nil_iff (p : codepoint -> bool) (s : str) :
  rstrip_with p s = [] <-> forallb p s = true.
Proof.
  unfold rstrip_with. rewrite <- (forallb_rev p s), <- lstrip_with_nil_iff.
  split; intros H.
  - apply (f_equal (@rev codepoint)) in H. now rewrite rev_involutive in H.
  - now rewrite H.
Qed.

Lemma rstrip_with_app_all (p : codepoint -> bool) (s t : str) :
  forallb p t = true -> rstrip_with p (s ++ t) = rstrip_with p s.
Proof.
  intros H. unfold rstrip_with. rewrite rev_app_distr.
  rewrite lstrip_with_all_app; [reflexivity |]. now rewrite forallb_rev.
Qed.

Lemma rstrip_with_idempotent (p : codepoint -> bool) (s : str) :
  rstrip_with p (rstrip_with p s) = rstrip_with p s.
Proof.
  unfold rstrip_with. now rewrite rev_involutive, lstrip_with_idempotent.
Qed.

Lemma rstrip_with_map (p : codepoint -> bool) (f : codepoint -> codepoint) (s : str) :
  (forall c, p (f c) = p c) ->
  rstrip_with p (map f s) = map f (rstrip_with p s).
Proof.
  intros H. unfold rstrip_with.
  now rewrite <- map_rev, lstrip_with_map, map_rev by exact H.
Qed.


Lemma all_newlines_repeat (t : str) :
  forallb (fun c => c =? newline) t = true ->
  t = repeat newline (List.length t).
Proof.
  induction t as [| c t IH]; simpl; [reflexivity |].
  intros H. apply andb_true_iff in H. destruct H as [Hc Ht].
  apply Z.eqb_eq in Hc. subst c. f_equal. now apply IH.
Qed.

Lemma repeat_all_newlines (k : nat) :
  forallb (fun c => c =? newline) (repeat newline k) = true.
Proof. induction k as [| k IH]; simpl; [reflexivity | exact IH]. Qed.

Lemma all_newlines_isspace (t : str) :
  forallb (fun c => c =? newline) t = true -> forallb isspace t = true.
Proof.
  induction t as [| c t IH]; simpl; [reflexivity |].
  intros H. apply andb_true_iff in H. destruct H as [Hc Ht].
  apply Z.eqb_eq in Hc. subst c. now rewrite IH.
Qed.

Lemma strip_nil_iff (s : str) : strip s = [] <-> forallb isspace s = true.
Proof.
  unfold strip. rewrite rstrip_with_nil_iff.
  destruct (lstrip_with_decompose isspace s) as (t & Hs & Ht).
  rewrite Hs at 2. rewrite forallb_app, Ht. reflexivity.
Qed.

Lemma rstrip_newline_blank (w : str) :
  forallb isspace (rstrip_newline w) = forallb isspace w.
Proof.
  destruct (rstrip_with_decompose (fun c => c =? newline) w) as (t & Hw & Ht).
  fold (rstrip_newline w) in Hw. rewrite Hw at 2.
  rewrite forallb_app, (all_newlines_isspace t Ht). now rewrite andb_true_r.
Qed.

Lemma shift_codepoint_newline_test (shift : Z) (c : codepoint) :
  (shift_codepoint shift c =? newline) = (c =? newline).
Proof.
  destruct (Z.eqb_spec c newline) as [-> | Hne].
  - reflexivity.
  - apply Z.eqb_neq. intros H. apply Hne.
    now apply shift_codepoint_newline in H.
Qed.

Lemma isspace_not_letter (c : codepoint) :
  isspace c = true -> is_letter c = false.
Proof.
  unfold isspace, is_letter, is_upper, is_lower.
  rewrite !orb_true_iff, !andb_true_iff, !Z.leb_le, !Z.eqb_eq.
  rewrite orb_false_iff, !andb_false_iff, !Z.leb_gt. lia.
Qed.


Lemma shift_codepoint_isspace (shift : Z) (c : codepoint) :
  isspace (shift_codepoint shift c) = isspace c.
Proof.
  destruct (is_letter c) eqn:L.
  - assert (L' : is_letter (shift_codepoint shift c) = true).
    { unfold is_letter in *. apply orb_true_iff in L. destruct L as [U | Lo].
      - now rewrite (shift_codepoint_upper shift c U).
      - rewrite (shift_codepoint_lower shift c Lo). apply orb_true_r. }
    destruct (isspace c) eqn:S1.
    + apply isspace_not_letter in S1. congruence.
    + destruct (isspace (shift_codepoint shift c)) eqn:S2; [| reflexivity].
      apply isspace_not_letter in S2. congruence.
  - now rewrite shift_codepoint_other.
Qed.

Lemma forallb_isspace_shift (shift : Z) (s : str) :
  forallb isspace (map (shift_codepoint shift) s) = forallb isspace s.
Proof.
  induction s as [| c s IH]; simpl; [reflexivity |].
  now rewrite shift_codepoint_isspace, IH.
Qed.

Lemma rstrip_newline_shift (shift : Z) (s : str) :
  rstrip_newline (map (shift_codepoint shift) s)
  = map (shift_codepoint shift) (rstrip_newline s).
Proof.
  unfold rstrip_newline. apply rstrip_with_map.
  intros c. apply shift_codepoint_newline_test.
Qed.

Lemma rstrip_newline_padding (s : str) (k : nat) :
  rstrip_newline (s ++ repeat newline k) = rstrip_newline s.
Proof. apply rstrip_with_app_all, repeat_all_newlines. Qed.

(** * Properties of the handlers *)

Lemma run_scheduled_inv (w mode : str) (shift d : Z) (txt m : str) (v : Z) :
  _run w mode shift = Scheduled d txt m v ->
  d = 120 /\ txt = rstrip_newline w /\ m = mode /\ v = clamp shift 0 25
  /\ strip txt <> [].
Proof.
  unfold _run. destruct (strip (rstrip_newline w)) eqn:E; [discriminate |].
  intros [= <- <- <- <-]. rewrite E. repeat split. discriminate.
Qed.

Lemma run_scheduled_intro (w mode : str) (shift : Z) :
  strip (rstrip_newline w) <> [] ->
  _run w mode shift = Scheduled 120 (rstrip_newline w) mode (clamp shift 0 25).
Proof.
  unfold _run. destruct (strip (rstrip_newline w)); [congruence | reflexivity].
Qed.


(** X14 (blank input): [_run] shows its warning and schedules nothing
    exactly when the input box holds whitespace only, the empty box
    included. *)
Theorem run_warns_iff_blank (w mode : str) (shift : Z) :
  _run w mode shift = NoInputWarning <-> forallb isspace w = true.
Proof.
  rewrite <- rstrip_newline_blank, <- strip_nil_iff.
  unfold _run. destruct (strip (rstrip_newline w)); split; congruence.
Qed.

(** X15 (what [_run] hands on): when [_run] schedules the processing, it
    does so after 120 ms, with the mode unchanged, with a shift within
    [0, 25] that is the slider value when that is within [0, 25], 0 when
    it is below and 25 when it is above, and with the input text less its
    trailing newlines, which then holds a non-whitespace character. *)
Theorem run_scheduled_arguments
  (w mode : str) (shift d : Z) (txt m : str) (v : Z) :
  _run w mode shift = Scheduled d txt m v ->
  d = 120 /\ m = mode
  /\ 0 <= v <= 25
  /\ (0 <= shift <= 25 -> v = shift)
  /\ (shift < 0 -> v = 0) /\ (25 < shift -> v = 25)
  /\ (exists k, w = txt ++ repeat newline k)
  /\ rstrip_newline txt = txt
  /\ (exists c, In c txt /\ isspace c = false).
Proof.
  intros H. apply run_scheduled_inv in H.
  destruct H as (-> & -> & -> & -> & Hne).
  split; [reflexivity |]. split; [reflexivity |].
  split; [unfold clamp; lia |]. split; [unfold clamp; lia |].
  split; [unfold clamp; lia |]. split; [unfold clamp; lia |].
  split; [| split].
  - destruct (rstrip_with_decompose (fun c => c =? newline) w) as (t & Hw & Ht).
    exists (List.length t). rewrite <- (all_newlines_repeat t Ht). exact Hw.
  - apply rstrip_with_idempotent.
  - destruct (forallb isspace (rstrip_newline w)) eqn:B.
    + exfalso. apply Hne. now apply strip_nil_iff.
    + assert (X : existsb (fun c => negb (isspace c)) (rstrip_newline w) = true).
      { clear Hne. induction (rstrip_newline w) as [| c r IH]; [discriminate |].
        simpl in *. destruct (isspace c); simpl in *; [now apply IH | reflexivity]. }
      apply existsb_exists in X. destruct X as (c & Hin & Hc).
      exists c. split; [exact Hin |]. now destruct (isspace c).
Qed.

Lemma run_scheduled_arguments_witness :
  _run (lit "Hi" ++ [newline]) (lit "Encrypt") 40
  = Scheduled 120 (lit "Hi") (lit "Encrypt") 25
  /\ 0 <= 25 <= 25
  /\ rstrip_newline (lit "Hi") = lit "Hi".
Proof.
  assert (H : _run (lit "Hi" ++ [newline]) (lit "Encrypt") 40
              = Scheduled 120 (lit "Hi") (lit "Encrypt") 25) by reflexivity.
  destruct (run_scheduled_arguments _ _ _ _ _ _ _ H)
    as (_ & _ & B & _ & _ & _ & _ & R & _).
  split; [exact H |]. split; [exact B | exact R].
Defined.

Lemma do_process_encrypt (txt : str) (v : Z) :
  _do_process txt (lit "Encrypt") v = Ok (map (shift_codepoint v) txt).
Proof. apply encrypt_text_map. Qed.

Lemma do_process_decrypt (txt : str) (v : Z) :
  _do_process txt (lit "Decrypt") v = Ok (map (shift_codepoint (- v)) txt).
Proof. apply decrypt_text_map. Qed.

(** X16 (round trip through the application): when a run in mode
    "Encrypt" puts [E] into the output box, a run in mode "Decrypt" with
    the same slider value on [E], followed by any number of newlines as
    the input box may add, is not refused and yields the text that the
    first run processed. *)
Theorem run_encrypt_then_decrypt
  (w : str) (shift d : Z) (txt m : str) (v : Z) (E : str) (k : nat) :
  _run w (lit "Encrypt") shift = Scheduled d txt m v ->
  _do_process txt m v = Ok E ->
  _run (E ++ repeat newline k) (lit "Decrypt") shift
  = Scheduled 120 E (lit "Decrypt") v
  /\ _do_process E (lit "Decrypt") v = Ok txt.
Proof.
  intros H HE. apply run_scheduled_inv in H.
  destruct H as (-> & -> & -> & -> & Hne).
  rewrite do_process_encrypt in HE. injection HE as <-.
  set (v := clamp shift 0 25).
  assert (R : rstrip_newline (map (shift_codepoint v) (rstrip_newline w)
                              ++ repeat newline k)
              = map (shift_codepoint v) (rstrip_newline w)).
  { rewrite rstrip_newline_padding, rstrip_newline_shift.
    unfold rstrip_newline. now rewrite rstrip_with_idempotent. }
  split.
  - rewrite run_scheduled_intro; rewrite R; [reflexivity |].
    intros B. apply Hne. apply strip_nil_iff. apply strip_nil_iff in B.
    now rewrite forallb_isspace_shift in B.
  - rewrite do_process_decrypt, map_map. f_equal.
    apply map_shift_twice_id. replace (v + - v) with 0 by lia. reflexivity.
Qed.

Lemma run_encrypt_then_decrypt_witness :
  _run (lit "Veni, vidi" ++ [newline]) (lit "Encrypt") 3
  = Scheduled 120 (lit "Veni, vidi") (lit "Encrypt") 3
  /\ _run (lit "Yhql, ylgl" ++ repeat newline 1) (lit "Decrypt") 3
     = Scheduled 120 (lit "Yhql, ylgl") (lit "Decrypt") 3
  /\ _do_process (lit "Yhql, ylgl") (lit "Decrypt") 3 = Ok (lit "Veni, vidi").
Proof.
  split; [reflexivity |].
  exact (run_encrypt_then_decrypt (lit "Veni, vidi" ++ [newline]) 3 120
           (lit "Veni, vidi") (lit "Encrypt") 3 (lit "Yhql, ylgl") 1
           eq_refl eq_refl).
Defined.





(** * Properties of the status-bar animation *)


Lemma slice_to_length {A : Type} (l : list A) :
  slice_to l (Z.of_nat (List.length l)) = l.
Proof.
  unfold slice_to. destruct (Z.ltb_spec (Z.of_nat (List.length l)) 0); [lia |].
  rewrite Nat2Z.id. apply firstn_all.
Qed.

Lemma step_again (reveal : Z -> Z -> Z) (text : str) (duration : Z)
  (budget : nat) (i : Z) :
  i < steps ->
  step reveal text duration (S budget) i
  = Configure (slice_to text (reveal (Z.of_nat (List.length text)) i))
      :: After (wait duration) :: step reveal text duration budget (i + 1).
Proof.
  intros H. cbn [step]. rewrite join_empty_singletons.
  destruct (Z.ltb_spec i steps); [reflexivity | lia].
Qed.

Lemma step_last (reveal : Z -> Z -> Z) (text : str) (duration : Z)
  (budget : nat) (i : Z) :
  steps <= i ->
  step reveal text duration budget i
  = [Configure (slice_to text (reveal (Z.of_nat (List.length text)) i))].
Proof.
  intros H. destruct budget; cbn [step]; rewrite join_empty_singletons;
    destruct (Z.ltb_spec i steps); try reflexivity; lia.
Qed.

Lemma animate_label_fade_unfold (reveal : Z -> Z -> Z) (text : str) (duration : Z) :
  let frame i := Configure (slice_to text (reveal (Z.of_nat (List.length text)) i)) in
  let pause := After (wait duration) in
  animate_label_fade reveal text duration
  = [Configure []; frame 1; pause; frame 2; pause; frame 3; pause; frame 4;
     pause; frame 5; pause; frame 6; pause; frame 7; pause; frame 8].
Proof.
  intros frame pause. unfold animate_label_fade.
  change (Z.to_nat steps) with 8%nat.
  do 7 (rewrite step_again by (unfold steps; lia); cbn [Z.add Pos.add Pos.succ]).
  rewrite step_last by (unfold steps; lia). reflexivity.
Qed.


(** X20 (the message ends up displayed): when the product computed for
    the last step [i = 8] is the length of the message, the last text the
    label is set to is the whole message. *)
Theorem animate_label_fade_ends_with_text
  (reveal : Z -> Z -> Z) (text : str) (duration : Z) :
  reveal (Z.of_nat (List.length text)) 8 = Z.of_nat (List.length text) ->
  last (displayed (animate_label_fade reveal text duration)) [] = text.
Proof.
  intros H. rewrite animate_label_fade_unfold. cbn [displayed last].
  rewrite H. apply slice_to_length.
Qed.

Lemma animate_label_fade_ends_with_text_witness :
  last (displayed (animate_label_fade exact_reveal (lit "Cleared text fields") 180)) []
  = lit "Cleared text fields".
Proof. apply animate_label_fade_ends_with_text. reflexivity. Defined.
